(** * Tic Tac Toe (src/tic_tac_toe_frontend/src/App.js)

    A shallow embedding of the game logic of [App.js]: the pure board
    evaluator [calculateWinner], the React state of the [App] component,
    its two event handlers and the effect that keeps the stored
    game-over flag in step with the board.

    JavaScript arrays are lists read with stdpp's lookup; a read past the
    end yields [Undefined], and a write past the end grows the array. *)

From stdpp Require Import base tactics option list strings.
From Stdlib Require Import Lia.

(** ** Values held by the board *)

(** The two marks, the strings ['X'] and ['O'] of the source. *)
Inductive player := X | O.

(** What an element read from [squares] can be: [undefined] (a read out of
    range, or a hole left by a write past the end), [null] (an empty cell)
    or a mark. *)
Inductive value := Undefined | Null | Mark (p : player).

#[global] Instance player_eq_dec : EqDecision player.
Proof. solve_decision. Defined.

#[global] Instance value_eq_dec : EqDecision value.
Proof. solve_decision. Defined.

Abbreviation board := (list value).

(** JavaScript truthiness: [undefined] and [null] are falsy, the non-empty
    strings ['X'] and ['O'] are truthy. *)
Definition truthy (v : value) : bool :=
  match v with
  | Mark _ => true
  | Undefined | Null => false
  end.

(** [v === w] on these values. *)
Definition strict_eq (v w : value) : bool := bool_decide (v = w).

(** [squares[i]]. *)
Definition array_get (squares : board) (i : nat) : value :=
  default Undefined (squares !! i).

(** [squares[i] = v]: in range the element is replaced, out of range the
    array grows, the indices in between being holes. *)
Definition array_set (squares : board) (i : nat) (v : value) : board :=
  if decide (i < length squares) then <[i:=v]> squares
  else squares ++ replicate (i - length squares) Undefined ++ [v].

(** [Array(9).fill(null)]. *)
Definition empty_board : board := replicate 9 Null.

(** [squares.every(Boolean)]: [every] does not visit holes. *)
Definition every_Boolean (squares : board) : bool :=
  forallb (fun v => match v with Undefined => true | _ => truthy v end) squares.

(** String conversion of a value inside a template literal. *)
Definition to_string (v : value) : string :=
  match v with
  | Undefined => "undefined"%string
  | Null => "null"%string
  | Mark X => "X"%string
  | Mark O => "O"%string
  end.

(** ** The win evaluator *)

Definition lines : list (nat * nat * nat) :=
  [ (0, 1, 2);
    (3, 4, 5);
    (6, 7, 8);
    (0, 3, 6);
    (1, 4, 7);
    (2, 5, 8);
    (0, 4, 8);
    (2, 4, 6) ].

(** The object [{ winner, line }] returned on a win. *)
Record WinResult := { winner : value; line : list nat }.

#[global] Instance WinResult_eq_dec : EqDecision WinResult.
Proof. solve_decision. Defined.

(** The condition of the [if] inside the loop. *)
Definition line_check (squares : board) (a b c : nat) : bool :=
  truthy (array_get squares a)
  && strict_eq (array_get squares a) (array_get squares b)
  && strict_eq (array_get squares a) (array_get squares c).

(** The [for ... of] loop with its early [return], over the lines that are
    still to be visited; [None] is the final [return null]. *)
Fixpoint scan_lines (squares : board) (ls : list (nat * nat * nat))
  : option WinResult :=
  match ls with
  | [] => None
  | (a, b, c) :: rest =>
      if line_check squares a b c
      then Some {| winner := array_get squares a; line := [a; b; c] |}
      else scan_lines squares rest
  end.

Definition calculateWinner (squares : board) : option WinResult :=
  scan_lines squares lines.

(** ** The state of the [App] component *)

Record State := {
  squares : board;
  isXNext : bool;
  gameOver : bool;
  history : list board
}.

(** A call of one of the four state setters. *)
Inductive setter :=
| setSquares (b : board)
| setIsXNext (x : bool)
| setGameOver (g : bool)
| setHistory (h : list board).

Definition apply_setter (st : State) (u : setter) : State :=
  match u with
  | setSquares b =>
      {| squares := b; isXNext := isXNext st;
         gameOver := gameOver st; history := history st |}
  | setIsXNext x =>
      {| squares := squares st; isXNext := x;
         gameOver := gameOver st; history := history st |}
  | setGameOver g =>
      {| squares := squares st; isXNext := isXNext st;
         gameOver := g; history := history st |}
  | setHistory h =>
      {| squares := squares st; isXNext := isXNext st;
         gameOver := gameOver st; history := h |}
  end.

Definition apply_setters (st : State) (us : list setter) : State :=
  foldl apply_setter st us.

(** The values computed on every render. *)
Definition winResult (st : State) : option WinResult :=
  calculateWinner (squares st).

Definition isBoardFull (st : State) : bool := every_Boolean (squares st).

Definition status (st : State) : string :=
  match winResult st with
  | Some r => ("Winner: " +:+ to_string (winner r))%string
  | None =>
      if isBoardFull st then "Draw!"%string
      else ("Next turn: " +:+ (if isXNext st then "X" else "O"))%string
  end.

(** The [winningLine] property handed to [Board]. *)
Definition winningLine (st : State) : option (list nat) :=
  match winResult st with
  | Some r => Some (line r)
  | None => None
  end.

(** The body of the effect. *)
Definition useEffect (st : State) : list setter :=
  if bool_decide (is_Some (winResult st)) || isBoardFull st
  then [setGameOver true]
  else [setGameOver false].

(** The two handlers, as the setter calls they make. *)
Definition handleSquareClick (idx : nat) (st : State) : list setter :=
  if truthy (array_get (squares st) idx) || gameOver st then []
  else
    let nextSquares :=
      array_set (squares st) idx (if isXNext st then Mark X else Mark O) in
    [ setSquares nextSquares;
      setIsXNext (negb (isXNext st));
      setHistory (history st ++ [nextSquares]) ].

Definition handleRestart (st : State) : list setter :=
  [ setSquares empty_board;
    setIsXNext true;
    setGameOver false;
    setHistory [] ].

(** One user event.  A handler that calls no setter causes no render.
    Otherwise the component renders with the new state and, [squares]
    being a fresh array, the effect runs; running it once more on its own
    result changes nothing ([useEffect_settled] below). *)
Definition dispatch (handler : State -> list setter) (st : State) : State :=
  match handler st with
  | [] => st
  | us => let st' := apply_setters st us in apply_setters st' (useEffect st')
  end.

Definition applyMove (idx : nat) (st : State) : State :=
  dispatch (handleSquareClick idx) st.

Definition reset (st : State) : State := dispatch handleRestart st.

(** The state after the first render: the [useState] defaults, then the
    effect. *)
Definition initialState : State :=
  let st0 := {| squares := empty_board; isXNext := true;
                gameOver := false; history := [] |} in
  apply_setters st0 (useEffect st0).

Definition applyMoves (idxs : list nat) (st : State) : State :=
  foldl (fun s idx => applyMove idx s) st idxs.

(** ** The result of a game, as the specification names it *)

Inductive GameResult :=
| InProgress
| Win (p : player) (l : list nat)
| Draw.

(** The three-way branch that chooses [status], kept as data.  The middle
    case of the inner match never arises ([calculateWinner_winner]). *)
Definition gameResult (squares : board) : GameResult :=
  match calculateWinner squares with
  | Some r =>
      match winner r with
      | Mark p => Win p (line r)
      | Undefined | Null => InProgress
      end
  | None => if every_Boolean squares then Draw else InProgress
  end.

(** ** What is drawn *)

(** The properties [Board] hands to a [Square].  [highlight] is the value
    of [winningLine && winningLine.includes(idx)]: [None] is the [null]
    that [&&] returns when there is no winning line. *)
Record SquareProps := {
  prop_value : value;
  prop_onClick : State -> list setter;
  prop_highlight : option bool;
  prop_disabled : bool
}.

(** The [button] element a [Square] returns. *)
Record Button := {
  className : string;
  onClick : State -> list setter;
  disabled : bool;
  aria_label : string;
  children : value
}.

(** Truthiness of [null] and of a boolean. *)
Definition truthy_flag (h : option bool) : bool :=
  match h with
  | Some b => b
  | None => false
  end.

Definition Square (props : SquareProps) : Button :=
  {| className :=
       ("ttt-square" +:+
        (if truthy_flag (prop_highlight props) then " highlight" else ""))%string;
     onClick := prop_onClick props;
     disabled := prop_disabled props;
     aria_label :=
       if truthy (prop_value props)
       then ("Cell " +:+ to_string (prop_value props))%string
       else "Empty cell"%string;
     children := prop_value props |}.

(** [Board]: [squares.map] calls its function on every index that holds an
    element and leaves a hole where the array has one. *)
Definition Board (squares : board)
    (onSquareClick : nat -> State -> list setter)
    (winningLine : option (list nat)) (isGameOver : bool)
  : list (option SquareProps) :=
  imap (fun idx val =>
          match val with
          | Undefined => None
          | _ =>
              Some {| prop_value := val;
                      prop_onClick := onSquareClick idx;
                      prop_highlight :=
                        match winningLine with
                        | None => None
                        | Some l => Some (bool_decide (idx ∈ l))
                        end;
                      prop_disabled := truthy val || isGameOver |}
          end) squares.

(** The [Board] element of [App], and the buttons it draws. *)
Definition App_Board (st : State) : list (option SquareProps) :=
  Board (squares st) handleSquareClick (winningLine st) (gameOver st).

Definition App_buttons (st : State) : list (option Button) :=
  fmap (M:=list) (fmap (M:=option) Square) (App_Board st).

(** The [className] of the status line. *)
Definition status_className (st : State) : string :=
  ("ttt-status" +:+
   (if String.prefix "Winner" (status st) then " ttt-status-winner"
    else if String.eqb (status st) "Draw!" then " ttt-status-draw"
    else ""))%string.

(** ** Notions used to state the properties *)

(** "Three equal non-empty marks" on the cells of a triple. *)
Definition three_equal_marks (squares : board) (t : nat * nat * nat) : Prop :=
  let '(a, b, c) := t in
  exists p, array_get squares a = Mark p
            /\ array_get squares b = Mark p
            /\ array_get squares c = Mark p.

(** The game-over flag the effect stores for a board. *)
Definition decided (squares : board) : bool :=
  bool_decide (is_Some (calculateWinner squares)) || every_Boolean squares.

(** "All nine cells are filled". *)
Definition all_filled (squares : board) : Prop :=
  forall i, i < 9 -> exists p, array_get squares i = Mark p.

(** The number of cells that hold the mark [p], and the number of cells
    that hold a mark. *)
Definition count_mark (p : player) (squares : board) : nat :=
  length (filter (fun v => v = Mark p) squares).

Definition count_filled (squares : board) : nat :=
  length (filter (fun v => truthy v = true) squares).

(** The user's two actions.  [Board] draws one button for each index of
    [squares] and a click on it calls the handler with that index, so a
    click always carries an index of the array. *)
Inductive event :=
| Click (idx : nat)
| Restart.

Definition step (st : State) (e : event) : State :=
  match e with
  | Click idx => applyMove idx st
  | Restart => reset st
  end.

Definition enabled (st : State) (e : event) : Prop :=
  match e with
  | Click idx => idx < length (squares st)
  | Restart => True
  end.

(** The states the component can be in between two events. *)
Inductive reachable : State -> Prop :=
| reachable_init : reachable initialState
| reachable_step st e :
    reachable st -> enabled st e -> reachable (step st e).

(** A click that the handler acts on: the index is on the board, the cell
    is empty and the game-over flag is clear. *)
Definition accepted (idx : nat) (st : State) : bool :=
  bool_decide (idx < length (squares st))
  && negb (truthy (array_get (squares st) idx) || gameOver st).

Fixpoint all_accepted (idxs : list nat) (st : State) : bool :=
  match idxs with
  | [] => true
  | idx :: rest => accepted idx st && all_accepted rest (applyMove idx st)
  end.

(** ** What holds in every reachable state *)

Record invariant (st : State) : Prop := {
  inv_length : length (squares st) = 9;
  inv_no_hole : Forall (fun v => v <> Undefined) (squares st);
  inv_gameOver : gameOver st = decided (squares st);
  inv_turn_X :
    isXNext st = true ->
    count_mark X (squares st) = count_mark O (squares st);
  inv_turn_O :
    isXNext st = false ->
    count_mark X (squares st) = count_mark O (squares st) + 1
}.

(** The other player, and a board with the two marks exchanged. *)
Definition other (p : player) : player :=
  match p with
  | X => O
  | O => X
  end.

Definition swap_value (v : value) : value :=
  match v with
  | Mark p => Mark (other p)
  | Undefined => Undefined
  | Null => Null
  end.

Definition swap_result (r : WinResult) : WinResult :=
  {| winner := swap_value (winner r); line := line r |}.

(** The player who placed the last mark, read off the turn flag. *)
Definition last_mover (st : State) : player :=
  if isXNext st then O else X.

(** What the move log and the turn flag record in every reachable state. *)
Record log_invariant (st : State) : Prop := {
  log_length : length (history st) = count_filled (squares st);
  log_turn : isXNext st = Nat.even (length (history st));
  log_last : last (empty_board :: history st) = Some (squares st);
  log_step :
    forall k b b',
      (empty_board :: history st) !! k = Some b ->
      history st !! k = Some b' ->
      exists idx,
        idx < 9
        /\ truthy (array_get b idx) = false
        /\ b' = array_set b idx (Mark (if Nat.even k then X else O));
  log_line :
    forall a b c p,
      (a, b, c) ∈ lines ->
      array_get (squares st) a = Mark p ->
      array_get (squares st) b = Mark p ->
      array_get (squares st) c = Mark p ->
      p = last_mover st
}.

(** * Properties *)

(** ** The win evaluator *)

Lemma truthy_Mark v : truthy v = true <-> exists p, v = Mark p.
Proof.
  destruct v; simpl; split; try discriminate; eauto.
  - intros [p Hp]; discriminate.
  - intros [p Hp]; discriminate.
Qed.

Lemma truthy_false v : truthy v = false <-> v = Undefined \/ v = Null.
Proof.
  destruct v; simpl; split; auto; try discriminate.
  intros [H | H]; discriminate.
Qed.

Lemma strict_eq_true v w : strict_eq v w = true <-> v = w.
Proof. unfold strict_eq. apply bool_decide_eq_true. Qed.

Lemma line_check_spec squares a b c :
  line_check squares a b c = true <-> three_equal_marks squares (a, b, c).
Proof.
  unfold line_check, three_equal_marks.
  rewrite !andb_true_iff, !strict_eq_true, truthy_Mark. split.
  - intros [[[p Hp] Hb] Hc]. exists p. rewrite <- Hb, <- Hc. auto.
  - intros (p & Ha & Hb & Hc). rewrite Ha, Hb, Hc. eauto.
Qed.

Lemma line_check_guard squares a b c :
  truthy (array_get squares a) = false -> line_check squares a b c = false.
Proof. unfold line_check. intros ->. reflexivity. Qed.

(** The loop returns at the first triple that passes the check. *)
Lemma scan_lines_Some squares ls r :
  scan_lines squares ls = Some r <->
  exists pre a b c post,
    ls = pre ++ (a, b, c) :: post
    /\ Forall (fun t => ~ three_equal_marks squares t) pre
    /\ three_equal_marks squares (a, b, c)
    /\ r = {| winner := array_get squares a; line := [a; b; c] |}.
Proof.
  induction ls as [| [[a b] c] rest IH]; simpl.
  - split; [discriminate |].
    intros (pre & a & b & c & post & E & _). by destruct pre.
  - destruct (line_check squares a b c) eqn:Hc.
    + apply line_check_spec in Hc. split.
      * intros [= <-]. exists [], a, b, c, rest. auto.
      * intros (pre & a' & b' & c' & post & E & Hpre & Hhit & ->).
        destruct pre as [| t pre]; simpl in E.
        -- by injection E as -> -> -> _.
        -- injection E as <- _. apply Forall_cons in Hpre as [Hno _].
           by destruct Hno.
    + assert (Hno : ~ three_equal_marks squares (a, b, c)).
      { rewrite <- line_check_spec, Hc. discriminate. }
      rewrite IH. split.
      * intros (pre & a' & b' & c' & post & -> & Hpre & Hhit & ->).
        exists ((a, b, c) :: pre), a', b', c', post. auto.
      * intros (pre & a' & b' & c' & post & E & Hpre & Hhit & ->).
        destruct pre as [| t pre]; simpl in E.
        -- injection E as <- <- <- _. by destruct Hno.
        -- injection E as <- ->. apply Forall_cons in Hpre as [_ Hpre].
           exists pre, a', b', c', post. auto.
Qed.

Lemma scan_lines_None squares ls :
  scan_lines squares ls = None <->
  Forall (fun t => ~ three_equal_marks squares t) ls.
Proof.
  induction ls as [| [[a b] c] rest IH]; simpl.
  - split; auto.
  - rewrite Forall_cons, <- IH, <- line_check_spec.
    destruct (line_check squares a b c); split; try discriminate.
    + intros [H _]. by destruct H.
    + intros H. split; [discriminate | done].
    + intros [_ H]. done.
Qed.

(** The winner reported is always a mark, held by the three cells of the
    reported line, and the line is one of [lines]. *)
Lemma calculateWinner_winner squares r :
  calculateWinner squares = Some r ->
  exists p a b c,
    r = {| winner := Mark p; line := [a; b; c] |}
    /\ (a, b, c) ∈ lines
    /\ array_get squares a = Mark p
    /\ array_get squares b = Mark p
    /\ array_get squares c = Mark p.
Proof.
  unfold calculateWinner. rewrite scan_lines_Some.
  intros (pre & a & b & c & post & E & _ & (p & Ha & Hb & Hc) & ->).
  exists p, a, b, c. rewrite Ha. repeat split; auto.
  rewrite E. apply elem_of_app. right. apply elem_of_cons. by left.
Qed.

(** C1: for every board, the evaluator visits the eight fixed triples in
    their order; it returns a result exactly when some triple holds three
    equal non-empty marks, namely the mark and the indices of the first
    such triple, and it returns nothing exactly when no triple does; a
    returned line is one of the eight. *)
Theorem calculateWinner_first_match (squares : board) :
  lines = [ (0, 1, 2); (3, 4, 5); (6, 7, 8);
            (0, 3, 6); (1, 4, 7); (2, 5, 8);
            (0, 4, 8); (2, 4, 6) ]
  /\ (forall r,
        calculateWinner squares = Some r <->
        exists pre a b c post p,
          lines = pre ++ (a, b, c) :: post
          /\ Forall (fun t => ~ three_equal_marks squares t) pre
          /\ array_get squares a = Mark p
          /\ array_get squares b = Mark p
          /\ array_get squares c = Mark p
          /\ r = {| winner := Mark p; line := [a; b; c] |})
  /\ (calculateWinner squares = None <->
      forall t, t ∈ lines -> ~ three_equal_marks squares t)
  /\ (forall r,
        calculateWinner squares = Some r ->
        exists a b c, line r = [a; b; c] /\ (a, b, c) ∈ lines).
Proof.
  split; [reflexivity |]. split; [| split].
  - intros r. unfold calculateWinner. rewrite scan_lines_Some. split.
    + intros (pre & a & b & c & post & E & Hpre & (p & Ha & Hb & Hc) & ->).
      exists pre, a, b, c, post, p. rewrite Ha. auto 10.
    + intros (pre & a & b & c & post & p & E & Hpre & Ha & Hb & Hc & ->).
      exists pre, a, b, c, post. rewrite Ha.
      repeat split; auto. exists p. auto.
  - unfold calculateWinner. rewrite scan_lines_None. apply Forall_forall.
  - intros r Hr.
    destruct (calculateWinner_winner _ _ Hr) as (p & a & b & c & -> & Hin & _).
    exists a, b, c. auto.
Qed.

(** C8: the evaluator is a total function of the board alone.  On every
    list of values, of any length and with [null] or missing cells, it
    returns either nothing or a winner that is a mark held by the three
    cells of one of the eight lines; a triple whose first cell is empty or
    missing fails the check whatever its other cells hold, and a triple
    that passes holds the same mark three times; a read past the end is
    [undefined], not a failure; equal boards give equal results. *)
Theorem calculateWinner_total (squares : board) :
  (calculateWinner squares = None
   \/ exists p a b c,
        calculateWinner squares
          = Some {| winner := Mark p; line := [a; b; c] |}
        /\ (a, b, c) ∈ lines
        /\ array_get squares a = Mark p
        /\ array_get squares b = Mark p
        /\ array_get squares c = Mark p)
  /\ (forall a b c,
        array_get squares a = Null \/ array_get squares a = Undefined ->
        line_check squares a b c = false)
  /\ (forall a b c,
        line_check squares a b c = true ->
        exists p, array_get squares a = Mark p
                  /\ array_get squares b = Mark p
                  /\ array_get squares c = Mark p)
  /\ (forall i, length squares <= i -> array_get squares i = Undefined)
  /\ (forall squares' : board,
        squares' = squares ->
        calculateWinner squares' = calculateWinner squares).
Proof.
  repeat split.
  - destruct (calculateWinner squares) as [r |] eqn:Hr; [right | by left].
    destruct (calculateWinner_winner _ _ Hr) as (p & a & b & c & -> & H).
    exists p, a, b, c. auto.
  - intros a b c H. apply line_check_guard, truthy_false. tauto.
  - intros a b c H. by apply line_check_spec in H.
  - intros i Hi. unfold array_get. by rewrite lookup_ge_None_2.
  - by intros squares' ->.
Qed.

(** ** Reading and writing cells *)

Lemma array_get_set_eq (squares : board) i v :
  array_get (array_set squares i v) i = v.
Proof.
  unfold array_get, array_set. case_decide as Hi.
  - by rewrite list_lookup_insert_eq.
  - rewrite lookup_app_r by lia. rewrite lookup_app_r.
    + rewrite length_replicate. by replace (_ - _ - _) with 0 by lia.
    + rewrite length_replicate. lia.
Qed.

Lemma array_get_set_ne (squares : board) i j v :
  j <> i -> array_get (array_set squares i v) j = array_get squares j.
Proof.
  intros Hne. unfold array_get, array_set. case_decide as Hi.
  - by rewrite list_lookup_insert_ne.
  - destruct (decide (j < length squares)) as [Hj | Hj].
    + by rewrite lookup_app_l.
    + rewrite (lookup_ge_None_2 squares j) by lia.
      rewrite lookup_app_r by lia.
      destruct (decide (j < i)) as [Hlt | Hge].
      * rewrite lookup_app_l by (rewrite length_replicate; lia).
        rewrite lookup_replicate_2 by lia. done.
      * rewrite lookup_ge_None_2; [done |].
        rewrite length_app, length_replicate. simpl. lia.
Qed.

Lemma array_set_length (squares : board) i v :
  i < length squares -> length (array_set squares i v) = length squares.
Proof.
  intros Hi. unfold array_set. rewrite decide_True by done.
  apply length_insert.
Qed.

(** ** The two operations *)

Lemma apply_useEffect st :
  apply_setters st (useEffect st)
  = {| squares := squares st; isXNext := isXNext st;
       gameOver := decided (squares st); history := history st |}.
Proof.
  unfold useEffect, decided, winResult, isBoardFull.
  by destruct (_ || _).
Qed.

(** A second run of the effect, caused by its own [setGameOver], stores
    the same flag. *)
Lemma useEffect_settled st :
  let st' := apply_setters st (useEffect st) in
  apply_setters st' (useEffect st') = st'.
Proof. cbv zeta. by rewrite !apply_useEffect. Qed.

Lemma applyMove_rejected idx st :
  truthy (array_get (squares st) idx) || gameOver st = true ->
  applyMove idx st = st.
Proof.
  intros H. unfold applyMove, dispatch, handleSquareClick. by rewrite H.
Qed.

Lemma applyMove_accepted idx st :
  truthy (array_get (squares st) idx) || gameOver st = false ->
  applyMove idx st
  = let nextSquares :=
      array_set (squares st) idx (if isXNext st then Mark X else Mark O) in
    {| squares := nextSquares; isXNext := negb (isXNext st);
       gameOver := decided nextSquares;
       history := history st ++ [nextSquares] |}.
Proof.
  intros H. unfold applyMove, dispatch, handleSquareClick. rewrite H.
  cbv zeta. by rewrite apply_useEffect.
Qed.

Lemma initialState_eq :
  initialState
  = {| squares := empty_board; isXNext := true;
       gameOver := false; history := [] |}.
Proof. reflexivity. Qed.

Lemma reset_eq st : reset st = initialState.
Proof. reflexivity. Qed.

Lemma reset_cells_empty st i :
  i < 9 -> array_get (squares (reset st)) i = Null.
Proof. intros Hi. do 9 (destruct i as [| i]; [reflexivity |]). lia. Qed.

(** C2: a click on an occupied cell, or a click when the game-over flag is
    set, calls no setter and leaves the whole state (board, turn flag,
    game-over flag) as it was; the handler has no failure result. *)
Theorem applyMove_ignored (st : State) (idx : nat) :
  truthy (array_get (squares st) idx) = true \/ gameOver st = true ->
  handleSquareClick idx st = []
  /\ applyMove idx st = st
  /\ squares (applyMove idx st) = squares st
  /\ isXNext (applyMove idx st) = isXNext st
  /\ gameOver (applyMove idx st) = gameOver st.
Proof.
  intros H.
  assert (Hg : truthy (array_get (squares st) idx) || gameOver st = true).
  { apply orb_true_iff. exact H. }
  split.
  - unfold handleSquareClick. by rewrite Hg.
  - rewrite (applyMove_rejected _ _ Hg). auto.
Qed.

Lemma applyMove_ignored_witness :
  let st := applyMove 4 initialState in
  (truthy (array_get (squares st) 4) = true \/ gameOver st = true)
  /\ applyMove 4 st = st.
Proof.
  assert (H : truthy (array_get (squares (applyMove 4 initialState)) 4) = true
              \/ gameOver (applyMove 4 initialState) = true)
    by (left; reflexivity).
  split; [exact H |].
  exact (proj1 (proj2 (applyMove_ignored (applyMove 4 initialState) 4 H))).
Defined.

(** C3: a click on an empty cell while the game-over flag is clear writes
    the mark of the player to move into that cell, leaves every other cell
    as it was, keeps the size of the board when the index is on it, and
    hands the turn to the other player. *)
Theorem applyMove_places_mark (st : State) (idx : nat) :
  truthy (array_get (squares st) idx) = false ->
  gameOver st = false ->
  array_get (squares (applyMove idx st)) idx
  = Mark (if isXNext st then X else O)
  /\ (forall j, j <> idx ->
        array_get (squares (applyMove idx st)) j
        = array_get (squares st) j)
  /\ (idx < length (squares st) ->
      length (squares (applyMove idx st)) = length (squares st))
  /\ isXNext (applyMove idx st) = negb (isXNext st).
Proof.
  intros Hempty Hgo.
  rewrite applyMove_accepted by (by rewrite Hempty, Hgo).
  cbv zeta. simpl. repeat split.
  - rewrite array_get_set_eq. by destruct (isXNext st).
  - intros j Hj. by apply array_get_set_ne.
  - apply array_set_length.
Qed.

Lemma applyMove_places_mark_witness :
  let st := applyMove 0 initialState in
  truthy (array_get (squares st) 4) = false
  /\ gameOver st = false
  /\ array_get (squares (applyMove 4 st)) 4 = Mark O
  /\ isXNext (applyMove 4 st) = true.
Proof.
  assert (H1 : truthy (array_get (squares (applyMove 0 initialState)) 4)
               = false) by reflexivity.
  assert (H2 : gameOver (applyMove 0 initialState) = false) by reflexivity.
  pose proof (applyMove_places_mark (applyMove 0 initialState) 4 H1 H2)
    as (Hcell & _ & _ & Hturn).
  exact (conj H1 (conj H2 (conj Hcell Hturn))).
Defined.

(** C6: from every state, restart gives the initial state: nine empty
    cells, X to move, the game-over flag clear (and an empty history). *)
Theorem reset_initial (st : State) :
  reset st = initialState
  /\ squares (reset st) = [Null; Null; Null; Null; Null; Null; Null; Null; Null]
  /\ (forall i, i < 9 -> array_get (squares (reset st)) i = Null)
  /\ isXNext (reset st) = true
  /\ gameOver (reset st) = false
  /\ history (reset st) = [].
Proof.
  repeat split. apply reset_cells_empty.
Qed.

(** C9: from the initial state the moves 0, 4, 1, 3, 2 put X on 0, 1, 2 and
    O on 4, 3, and the result is a win of X on the line [0, 1, 2], not on
    [0, 4, 8]. *)
Theorem example_moves_win_top_row :
  let st := applyMoves [0; 4; 1; 3; 2] initialState in
  squares st
  = [Mark X; Mark X; Mark X; Mark O; Mark O; Null; Null; Null; Null]
  /\ gameResult (squares st) = Win X [0; 1; 2]
  /\ gameResult (squares st) <> Win X [0; 4; 8]
  /\ winResult st = Some {| winner := Mark X; line := [0; 1; 2] |}
  /\ status st = "Winner: X"%string
  /\ gameOver st = true.
Proof.
  cbv zeta.
  assert (E : squares (applyMoves [0; 4; 1; 3; 2] initialState)
              = [Mark X; Mark X; Mark X; Mark O; Mark O;
                 Null; Null; Null; Null]) by (vm_compute; reflexivity).
  split; [exact E |]. rewrite E.
  split; [vm_compute; reflexivity |].
  split; [vm_compute; intros [=] |].
  split; [vm_compute; reflexivity |].
  split; vm_compute; reflexivity.
Qed.

(** ** Counting cells *)

Section counting.
Context {A : Type} (P : A -> Prop) `{!forall x, Decision (P x)}.

(** Replacing one element changes the number of elements that satisfy
    [P] by what the old and the new element contribute. *)
Lemma filter_insert_length (l : list A) i old v :
  l !! i = Some old ->
  length (filter P (<[i:=v]> l)) + (if decide (P old) then 1 else 0)
  = length (filter P l) + (if decide (P v) then 1 else 0).
Proof.
  revert i. induction l as [| x l IH]; intros i Hi; [done |].
  destruct i as [| i]; simpl in Hi.
  - injection Hi as ->. simpl. rewrite !filter_cons.
    repeat case_decide; simpl; lia.
  - specialize (IH i Hi). simpl. rewrite !filter_cons.
    destruct (decide (P x)); simpl; lia.
Qed.

Lemma filter_all_length (l : list A) :
  length (filter P l) = length l -> Forall P l.
Proof.
  intros Hlen. apply Forall_forall. intros x Hx.
  destruct (decide (P x)) as [| Hn]; [done |].
  pose proof (length_filter_lt P l x Hx Hn). lia.
Qed.
End counting.

Lemma count_mark_set (squares : board) idx p q :
  idx < length squares ->
  truthy (array_get squares idx) = false ->
  count_mark p (array_set squares idx (Mark q))
  = count_mark p squares + (if decide (p = q) then 1 else 0).
Proof.
  intros Hidx Hempty. unfold count_mark, array_set.
  rewrite decide_True by done.
  destruct (lookup_lt_is_Some_2 squares idx Hidx) as [old Hold].
  pose proof (filter_insert_length (fun v => v = Mark p) squares idx old
                (Mark q) Hold) as H.
  unfold array_get in Hempty. rewrite Hold in Hempty. simpl in Hempty.
  rewrite decide_False in H by (intros ->; discriminate).
  destruct (decide (p = q)) as [-> | Hne].
  - rewrite decide_True in H by done. lia.
  - rewrite decide_False in H by congruence. lia.
Qed.

Lemma count_filled_set (squares : board) idx q :
  idx < length squares ->
  truthy (array_get squares idx) = false ->
  count_filled (array_set squares idx (Mark q)) = count_filled squares + 1.
Proof.
  intros Hidx Hempty. unfold count_filled, array_set.
  rewrite decide_True by done.
  destruct (lookup_lt_is_Some_2 squares idx Hidx) as [old Hold].
  pose proof (filter_insert_length (fun v => truthy v = true) squares idx old
                (Mark q) Hold) as H.
  unfold array_get in Hempty. rewrite Hold in Hempty. simpl in Hempty.
  rewrite decide_False in H by congruence.
  rewrite decide_True in H by done. lia.
Qed.

(** On a board of nine cells without holes, [every(Boolean)] says that all
    nine cells are filled. *)
Lemma every_Boolean_all_filled (squares : board) :
  length squares = 9 ->
  Forall (fun v => v <> Undefined) squares ->
  every_Boolean squares = true <-> all_filled squares.
Proof.
  intros Hlen Hholes. unfold every_Boolean, all_filled.
  rewrite <- Is_true_true, forallb_True, Forall_lookup. split.
  - intros H i Hi.
    destruct (lookup_lt_is_Some_2 squares i) as [v Hv]; [lia |].
    specialize (H i v Hv). unfold array_get. rewrite Hv. simpl.
    pose proof (Forall_lookup_1 _ _ _ _ Hholes Hv) as Hv'.
    destruct v as [| | p]; simpl in H; [done | done | by exists p].
  - intros H i v Hv.
    assert (Hi : i < 9) by (rewrite <- Hlen; by eapply lookup_lt_Some).
    destruct (H i Hi) as [p Hp]. unfold array_get in Hp.
    rewrite Hv in Hp. simpl in Hp. by subst v.
Qed.

(** ** The invariant holds in every reachable state *)

Lemma invariant_initial : invariant initialState.
Proof.
  split; try reflexivity; try discriminate.
  rewrite initialState_eq. simpl. unfold empty_board.
  apply Forall_replicate. discriminate.
Qed.

Lemma invariant_applyMove st idx :
  invariant st -> idx < length (squares st) -> invariant (applyMove idx st).
Proof.
  intros [Hlen Hholes Hgo HX HO] Hidx.
  destruct (truthy (array_get (squares st) idx) || gameOver st) eqn:Hg.
  - rewrite applyMove_rejected by done. by split.
  - rewrite applyMove_accepted by done. cbv zeta.
    apply orb_false_iff in Hg as [Hempty _].
    split; simpl.
    + by rewrite array_set_length.
    + unfold array_set. rewrite decide_True by done.
      apply Forall_insert; [done |]. by destruct (isXNext st).
    + reflexivity.
    + intros Hturn. apply negb_true_iff in Hturn. rewrite Hturn.
      rewrite !count_mark_set by done. simpl.
      rewrite (HO Hturn). lia.
    + intros Hturn. apply negb_false_iff in Hturn. rewrite Hturn.
      rewrite !count_mark_set by done. simpl.
      rewrite (HX Hturn). lia.
Qed.

Lemma gameResult_cases (squares : board) :
  match calculateWinner squares with
  | Some r => exists p, winner r = Mark p /\ gameResult squares = Win p (line r)
  | None =>
      gameResult squares = if every_Boolean squares then Draw else InProgress
  end.
Proof.
  unfold gameResult. destruct (calculateWinner squares) as [r |] eqn:Hr.
  - destruct (calculateWinner_winner _ _ Hr) as (p & a & b & c & -> & _).
    by exists p.
  - reflexivity.
Qed.

Lemma reachable_invariant st : reachable st -> invariant st.
Proof.
  induction 1 as [| st [idx |] _ IH He]; simpl in *.
  - apply invariant_initial.
  - by apply invariant_applyMove.
  - rewrite reset_eq. apply invariant_initial.
Qed.

Lemma reachable_click st idx :
  reachable st -> idx < length (squares st) -> reachable (applyMove idx st).
Proof. intros H Hidx. by apply (reachable_step st (Click idx)). Qed.

Lemma reachable_restart st : reachable st -> reachable (reset st).
Proof. intros H. by apply (reachable_step st Restart). Qed.

(** Reachability of a state given as a concrete run of clicks. *)
Ltac reachable_run :=
  unfold applyMoves; simpl;
  repeat (apply reachable_click;
          [| match goal with
             | |- ?i < length (squares ?s) =>
                 let n := eval vm_compute in (length (squares s)) in
                 change (length (squares s)) with n; lia
             end]);
  apply reachable_init.

(** The stored flag says that the result is no longer [InProgress]. *)
Lemma decided_result (squares : board) :
  decided squares = true <-> gameResult squares <> InProgress.
Proof.
  pose proof (gameResult_cases squares) as Hres. unfold decided.
  destruct (calculateWinner squares) as [r |].
  - destruct Hres as (p & _ & ->). simpl. split; [discriminate | done].
  - rewrite Hres, bool_decide_eq_false_2 by (intros [? ?]; discriminate).
    simpl. destruct (every_Boolean squares); split; try discriminate; done.
Qed.

(** Once the board shows a win or a draw, clicks change nothing. *)
Corollary applyMove_after_result st idx :
  reachable st -> gameResult (squares st) <> InProgress ->
  applyMove idx st = st.
Proof.
  intros Hreach Hres. apply applyMove_rejected, orb_true_iff. right.
  rewrite (inv_gameOver st (reachable_invariant st Hreach)).
  by apply decided_result.
Qed.


(** C4: in every reachable state the stored game-over flag and the result
    are functions of the board.  The flag is set exactly when the
    evaluator finds a winner or all nine cells are filled, that is exactly
    when the result is not [InProgress]; the result is the evaluator's win
    whenever there is one, full board or not, [Draw] when the board is
    full without a winner, and [InProgress] otherwise; the status line and
    the highlighted line follow the same three cases. *)
Theorem game_result_derived (st : State) :
  reachable st ->
  (gameOver st = true <->
   is_Some (calculateWinner (squares st)) \/ all_filled (squares st))
  /\ (gameOver st = true <-> gameResult (squares st) <> InProgress)
  /\ (forall r,
        calculateWinner (squares st) = Some r ->
        exists p,
          winner r = Mark p
          /\ gameResult (squares st) = Win p (line r)
          /\ status st = ("Winner: " +:+ to_string (Mark p))%string
          /\ winningLine st = Some (line r))
  /\ (calculateWinner (squares st) = None ->
      all_filled (squares st) ->
      gameResult (squares st) = Draw
      /\ status st = "Draw!"%string
      /\ winningLine st = None)
  /\ (calculateWinner (squares st) = None ->
      ~ all_filled (squares st) ->
      gameResult (squares st) = InProgress
      /\ status st
         = ("Next turn: " +:+ (if isXNext st then "X" else "O"))%string
      /\ winningLine st = None).
Proof.
  intros Hreach.
  destruct (reachable_invariant st Hreach) as [Hlen Hholes Hgo _ _].
  pose proof (every_Boolean_all_filled _ Hlen Hholes) as Hfull.
  pose proof (gameResult_cases (squares st)) as Hres.
  unfold status, winningLine, winResult, isBoardFull.
  rewrite Hgo. unfold decided.
  destruct (calculateWinner (squares st)) as [r |] eqn:Hr.
  - destruct Hres as (p & Hp & Hwin). simpl.
    split; [ split; eauto |].
    split; [ split; [rewrite Hwin; discriminate | done] |].
    split; [| split; discriminate].
    intros r' [= <-]. exists p. by rewrite Hp.
  - rewrite bool_decide_eq_false_2 by (intros [? ?]; discriminate). simpl.
    split.
    { rewrite Hfull. split; [tauto |]. intros [[? ?] | ?]; [discriminate | done]. }
    split.
    { rewrite Hres. destruct (every_Boolean (squares st)); split;
        try discriminate; try done. }
    split; [discriminate |].
    split.
    + intros _ Hall. apply Hfull in Hall. rewrite Hall in *. auto.
    + intros _ Hnot.
      destruct (every_Boolean (squares st)); [| auto].
      destruct Hnot. by apply Hfull.
Qed.

Lemma game_result_derived_witness :
  let st := applyMoves [0; 4; 1; 3; 2] initialState in
  reachable st /\ (gameOver st = true <-> gameResult (squares st) <> InProgress).
Proof.
  assert (H : reachable (applyMoves [0; 4; 1; 3; 2] initialState)).
  { reachable_run. }
  exact (conj H (proj1 (proj2 (game_result_derived _ H)))).
Defined.

(** A move never touches a cell that holds a mark. *)
Lemma applyMove_keeps_mark st idx i p :
  array_get (squares st) i = Mark p ->
  array_get (squares (applyMove idx st)) i = Mark p.
Proof.
  intros Hi.
  destruct (truthy (array_get (squares st) idx) || gameOver st) eqn:Hg.
  - by rewrite applyMove_rejected.
  - rewrite applyMove_accepted by done. cbv zeta. simpl.
    apply orb_false_iff in Hg as [Hempty _].
    rewrite array_get_set_ne; [done |].
    intros ->. rewrite Hi in Hempty. discriminate.
Qed.

Lemma applyMoves_keep_mark idxs st i p :
  array_get (squares st) i = Mark p ->
  array_get (squares (applyMoves idxs st)) i = Mark p.
Proof.
  revert st. induction idxs as [| idx idxs IH]; intros st Hi; [done |].
  unfold applyMoves. simpl. apply IH. by apply applyMove_keeps_mark.
Qed.

(** C5: in a reachable state, a cell that holds a mark holds that same
    mark after any further moves, whatever their indices; restart is what
    makes it empty again. *)
Theorem mark_kept_until_reset (st : State) (i : nat) (p : player)
    (idxs : list nat) :
  reachable st ->
  array_get (squares st) i = Mark p ->
  array_get (squares (applyMoves idxs st)) i = Mark p
  /\ array_get (squares (reset st)) i = Null.
Proof.
  intros Hreach Hi. split; [by apply applyMoves_keep_mark |].
  destruct (reachable_invariant st Hreach) as [Hlen _ _ _ _].
  assert (Hlt : i < 9).
  { destruct (decide (i < 9)) as [| Hge]; [done |].
    unfold array_get in Hi. rewrite lookup_ge_None_2 in Hi by lia.
    discriminate. }
  by apply reset_cells_empty.
Qed.

Lemma mark_kept_until_reset_witness :
  let st := applyMove 4 initialState in
  reachable st
  /\ array_get (squares st) 4 = Mark X
  /\ array_get (squares (applyMoves [4; 0; 8; 4] st)) 4 = Mark X
  /\ array_get (squares (reset st)) 4 = Null.
Proof.
  assert (H : reachable (applyMove 4 initialState)).
  { change (applyMove 4 initialState) with (applyMoves [4] initialState).
    reachable_run. }
  assert (H4 : array_get (squares (applyMove 4 initialState)) 4 = Mark X)
    by reflexivity.
  exact (conj H (conj H4
           (mark_kept_until_reset (applyMove 4 initialState) 4 X
              [4; 0; 8; 4] H H4))).
Defined.

(** C10: in every reachable state the board holds as many X as O when X
    is to move and one more X than O when O is to move; so X is never
    behind and never more than one ahead. *)
Theorem mark_counts_balanced (st : State) :
  reachable st ->
  (isXNext st = true ->
   count_mark X (squares st) = count_mark O (squares st))
  /\ (isXNext st = false ->
      count_mark X (squares st) = count_mark O (squares st) + 1)
  /\ count_mark O (squares st) <= count_mark X (squares st)
  /\ count_mark X (squares st) <= count_mark O (squares st) + 1.
Proof.
  intros Hreach.
  destruct (reachable_invariant st Hreach) as [_ _ _ HX HO].
  split; [done |]. split; [done |].
  destruct (isXNext st); [rewrite HX by done | rewrite HO by done]; lia.
Qed.

Lemma mark_counts_balanced_witness :
  let st := applyMoves [4; 0; 8] initialState in
  reachable st
  /\ isXNext st = false
  /\ count_mark X (squares st) = count_mark O (squares st) + 1.
Proof.
  assert (H : reachable (applyMoves [4; 0; 8] initialState)).
  { reachable_run. }
  assert (Ht : isXNext (applyMoves [4; 0; 8] initialState) = false)
    by reflexivity.
  exact (conj H (conj Ht
           (proj1 (proj2 (mark_counts_balanced _ H)) Ht))).
Defined.

(** ** Runs of accepted moves *)

Lemma accepted_true idx st :
  accepted idx st = true <->
  idx < length (squares st)
  /\ truthy (array_get (squares st) idx) || gameOver st = false.
Proof.
  unfold accepted.
  by rewrite andb_true_iff, bool_decide_eq_true, negb_true_iff.
Qed.

(** Each accepted move fills one more cell. *)
Lemma all_accepted_run idxs st :
  invariant st ->
  all_accepted idxs st = true ->
  invariant (applyMoves idxs st)
  /\ count_filled (squares (applyMoves idxs st))
     = count_filled (squares st) + length idxs.
Proof.
  revert st. induction idxs as [| idx idxs IH]; intros st Hinv Hacc.
  - simpl. split; [done | lia].
  - simpl in Hacc. apply andb_true_iff in Hacc as [Hidx Hrest].
    apply accepted_true in Hidx as [Hlt Hg].
    destruct (IH (applyMove idx st)) as [Hinv' Hcount];
      [by apply invariant_applyMove | done |].
    unfold applyMoves in *. simpl. split; [done |].
    rewrite Hcount, applyMove_accepted by done. cbv zeta. simpl.
    apply orb_false_iff in Hg as [Hempty _].
    destruct (isXNext st); rewrite count_filled_set by done; lia.
Qed.

Lemma count_filled_full (squares : board) :
  count_filled squares = length squares -> every_Boolean squares = true.
Proof.
  intros H. apply filter_all_length in H.
  unfold every_Boolean. apply Is_true_true, forallb_True.
  eapply Forall_impl; [exact H |].
  intros v Hv. simpl in Hv. destruct v; try discriminate. done.
Qed.

(** C7: nine accepted moves from the initial state that leave none of the
    eight lines with three equal marks end in a draw: the result is
    [Draw], the status line reads "Draw!" and the game-over flag is set. *)
Theorem nine_accepted_moves_draw (idxs : list nat) :
  length idxs = 9 ->
  all_accepted idxs initialState = true ->
  (forall t, t ∈ lines ->
     ~ three_equal_marks (squares (applyMoves idxs initialState)) t) ->
  gameResult (squares (applyMoves idxs initialState)) = Draw
  /\ status (applyMoves idxs initialState) = "Draw!"%string
  /\ gameOver (applyMoves idxs initialState) = true.
Proof.
  intros Hlen Hacc Hlines.
  destruct (all_accepted_run idxs initialState invariant_initial Hacc)
    as [[Hlen9 _ Hgo _ _] Hcount].
  assert (Hfull : every_Boolean (squares (applyMoves idxs initialState)) = true).
  { apply count_filled_full. rewrite Hcount, Hlen, Hlen9. reflexivity. }
  assert (Hnone : calculateWinner (squares (applyMoves idxs initialState)) = None).
  { unfold calculateWinner. apply scan_lines_None, Forall_forall, Hlines. }
  unfold gameResult, status, winResult, isBoardFull.
  rewrite Hgo. unfold decided. rewrite Hnone, Hfull. auto.
Qed.

Lemma nine_accepted_moves_draw_witness :
  let idxs := [0; 1; 2; 4; 3; 5; 7; 6; 8] in
  all_accepted idxs initialState = true
  /\ squares (applyMoves idxs initialState)
     = [Mark X; Mark O; Mark X; Mark X; Mark O; Mark O; Mark O; Mark X; Mark X]
  /\ gameResult (squares (applyMoves idxs initialState)) = Draw.
Proof.
  assert (Hacc : all_accepted [0; 1; 2; 4; 3; 5; 7; 6; 8] initialState = true)
    by (vm_compute; reflexivity).
  assert (Hlines : forall t, t ∈ lines ->
            ~ three_equal_marks
                (squares (applyMoves [0; 1; 2; 4; 3; 5; 7; 6; 8] initialState))
                t).
  { apply Forall_forall, scan_lines_None. vm_compute. reflexivity. }
  split; [exact Hacc |]. split; [vm_compute; reflexivity |].
  exact (proj1 (nine_accepted_moves_draw [0; 1; 2; 4; 3; 5; 7; 6; 8]
                  eq_refl Hacc Hlines)).
Defined.

(** * Further properties of the evaluator *)

Lemma lines_indices a b c :
  (a, b, c) ∈ lines ->
  a <> b /\ a <> c /\ b <> c /\ a < 9 /\ b < 9 /\ c < 9.
Proof.
  unfold lines. intros H.
  repeat (apply elem_of_cons in H as [[= -> -> ->] | H]; [lia |]).
  by apply elem_of_nil in H.
Qed.

Lemma array_get_Some (squares : board) i v :
  array_get squares i = v -> v <> Undefined -> squares !! i = Some v.
Proof.
  unfold array_get. destruct (squares !! i); simpl; congruence.
Qed.

(** Three different cells that hold the mark [p] make the count of [p] at
    least three. *)
Lemma three_cells_count (squares : board) a b c p :
  a <> b -> a <> c -> b <> c ->
  array_get squares a = Mark p ->
  array_get squares b = Mark p ->
  array_get squares c = Mark p ->
  3 <= count_mark p squares.
Proof.
  intros Hab Hac Hbc Ha Hb Hc. unfold count_mark.
  apply array_get_Some in Ha, Hb, Hc; try discriminate.
  pose proof (filter_insert_length (fun v => v = Mark p) squares a
                (Mark p) Null Ha) as H1.
  pose proof (filter_insert_length (fun v => v = Mark p) (<[a:=Null]> squares)
                b (Mark p) Null) as H2.
  rewrite list_lookup_insert_ne in H2 by done. specialize (H2 Hb).
  pose proof (filter_insert_length (fun v => v = Mark p)
                (<[b:=Null]> (<[a:=Null]> squares)) c (Mark p) Null) as H3.
  rewrite !list_lookup_insert_ne in H3 by done. specialize (H3 Hc).
  rewrite decide_True in H1, H2, H3 by done.
  rewrite decide_False in H1, H2, H3 by discriminate.
  lia.
Qed.

Lemma calculateWinner_three_marks (squares : board) r :
  calculateWinner squares = Some r ->
  exists p, winner r = Mark p /\ 3 <= count_mark p squares.
Proof.
  intros Hr.
  destruct (calculateWinner_winner _ _ Hr)
    as (p & a & b & c & -> & Hin & Ha & Hb & Hc).
  destruct (lines_indices _ _ _ Hin) as (Hab & Hac & Hbc & _).
  exists p. split; [done |]. by apply (three_cells_count _ a b c).
Qed.

(** X1: a win needs three marks of the winner on the board, so a board on
    which each player has fewer than three marks, the empty array and the
    empty board among them, has no winner. *)
Theorem no_winner_below_three_marks (squares : board) :
  count_mark X squares < 3 ->
  count_mark O squares < 3 ->
  calculateWinner squares = None.
Proof.
  intros HX HO. destruct (calculateWinner squares) as [r |] eqn:Hr; [| done].
  destruct (calculateWinner_three_marks _ _ Hr) as ([|] & _ & H); lia.
Qed.

Lemma no_winner_below_three_marks_witness :
  let squares := [Mark X; Mark O; Mark X; Mark O] in
  count_mark X squares < 3
  /\ count_mark O squares < 3
  /\ calculateWinner squares = None.
Proof.
  assert (HX : count_mark X [Mark X; Mark O; Mark X; Mark O] < 3)
    by (vm_compute; lia).
  assert (HO : count_mark O [Mark X; Mark O; Mark X; Mark O] < 3)
    by (vm_compute; lia).
  exact (conj HX (conj HO (no_winner_below_three_marks _ HX HO))).
Defined.

Lemma array_get_swap (squares : board) i :
  array_get (swap_value <$> squares) i = swap_value (array_get squares i).
Proof.
  unfold array_get. rewrite list_lookup_fmap.
  by destruct (squares !! i).
Qed.

Lemma line_check_swap (squares : board) a b c :
  line_check (swap_value <$> squares) a b c = line_check squares a b c.
Proof.
  unfold line_check, strict_eq. rewrite !array_get_swap.
  destruct (array_get squares a) as [| | []],
           (array_get squares b) as [| | []],
           (array_get squares c) as [| | []]; reflexivity.
Qed.

(** X2: the evaluator treats the two players alike: on the board with X
    and O exchanged it reports the same line, for the other player. *)
Theorem calculateWinner_swap (squares : board) :
  calculateWinner (swap_value <$> squares)
  = swap_result <$> calculateWinner squares.
Proof.
  unfold calculateWinner. induction lines as [| [[a b] c] ls IH]; [done |].
  simpl. rewrite line_check_swap, IH, array_get_swap.
  by destruct (line_check squares a b c).
Qed.

Lemma scan_lines_ext (squares squares' : board) ls :
  Forall (fun '(a, b, c) =>
            array_get squares a = array_get squares' a
            /\ array_get squares b = array_get squares' b
            /\ array_get squares c = array_get squares' c) ls ->
  scan_lines squares ls = scan_lines squares' ls.
Proof.
  induction 1 as [| [[a b] c] ls (Ha & Hb & Hc) _ IH]; [done |].
  simpl. unfold line_check. by rewrite Ha, Hb, Hc, IH.
Qed.

(** X3: the evaluator reads the cells 0 to 8 and nothing else: two arrays
    that agree on these nine indices, whatever their lengths and further
    elements, get the same result. *)
Theorem calculateWinner_first_nine (squares squares' : board) :
  (forall i, i < 9 -> array_get squares i = array_get squares' i) ->
  calculateWinner squares = calculateWinner squares'.
Proof.
  intros H. apply scan_lines_ext, Forall_forall.
  intros [[a b] c] Hin.
  destruct (lines_indices _ _ _ Hin) as (_ & _ & _ & Ha & Hb & Hc). auto.
Qed.

Lemma calculateWinner_first_nine_witness :
  let squares := [Mark O; Mark O; Mark O; Null; Mark X; Mark X; Null; Null; Mark X] in
  calculateWinner (squares ++ [Mark X; Undefined; Mark X])
  = calculateWinner squares.
Proof.
  apply calculateWinner_first_nine.
  intros i Hi. do 9 (destruct i as [| i]; [reflexivity |]). lia.
Defined.

(** * Further properties of the game *)

Lemma count_filled_marks (squares : board) :
  count_filled squares = count_mark X squares + count_mark O squares.
Proof.
  unfold count_filled, count_mark.
  induction squares as [| v l IH]; [done |].
  rewrite !filter_cons.
  destruct v as [| | []]; simpl; repeat case_decide; simpl; try done; lia.
Qed.

Lemma decided_false_no_winner (squares : board) :
  decided squares = false -> calculateWinner squares = None.
Proof.
  unfold decided. intros H. apply orb_false_iff in H as [H _].
  apply bool_decide_eq_false in H.
  destruct (calculateWinner squares); [| done]. destruct H. eauto.
Qed.

Lemma no_winner_no_line (squares : board) a b c p :
  calculateWinner squares = None ->
  (a, b, c) ∈ lines ->
  array_get squares a = Mark p ->
  array_get squares b = Mark p ->
  array_get squares c = Mark p ->
  False.
Proof.
  unfold calculateWinner. rewrite scan_lines_None, Forall_forall.
  intros H Hin Ha Hb Hc. apply (H _ Hin). exists p. auto.
Qed.

Lemma log_invariant_initial : log_invariant initialState.
Proof.
  split; try reflexivity.
  - intros k b b' _ H. by rewrite initialState_eq in H.
  - intros a b c p Hin Ha _ _. exfalso.
    destruct (lines_indices _ _ _ Hin) as (_ & _ & _ & Hlt & _).
    change (squares initialState) with (squares (reset initialState)) in Ha.
    rewrite reset_cells_empty in Ha by done. discriminate.
Qed.

Lemma log_invariant_applyMove st idx :
  invariant st -> log_invariant st -> idx < length (squares st) ->
  log_invariant (applyMove idx st).
Proof.
  intros [Hlen9 _ Hgo _ _] [Hlen Hturn Hlast Hstep Hline] Hidx.
  destruct (truthy (array_get (squares st) idx) || gameOver st) eqn:Hg.
  { rewrite applyMove_rejected by done. by split. }
  rewrite applyMove_accepted by done. cbv zeta.
  apply orb_false_iff in Hg as [Hempty Hover].
  set (next := array_set (squares st) idx
                 (if isXNext st then Mark X else Mark O)).
  assert (Hnext : next = array_set (squares st) idx
                           (Mark (if Nat.even (length (history st))
                                  then X else O))).
  { unfold next. rewrite <- Hturn. by destruct (isXNext st). }
  split; simpl.
  - rewrite length_app, Hlen, Hnext, count_filled_set by done. simpl. lia.
  - rewrite length_app, Hturn. simpl.
    rewrite Nat.add_1_r, Nat.even_succ, <- Nat.negb_even. done.
  - by rewrite app_comm_cons, last_snoc.
  - intros k b b' Hb Hb'.
    destruct (decide (k < length (history st))) as [Hk | Hk].
    + rewrite lookup_app_l in Hb' by done.
      rewrite app_comm_cons, lookup_app_l in Hb by (simpl; lia).
      by apply Hstep.
    + assert (k = length (history st)) as ->.
      { apply lookup_lt_Some in Hb'. rewrite length_app in Hb'.
        simpl in Hb'. lia. }
      rewrite list_lookup_middle in Hb' by done.
      rewrite app_comm_cons, lookup_app_l in Hb by (simpl; lia).
      rewrite last_lookup in Hlast. simpl in Hlast.
      rewrite Hlast in Hb. injection Hb as <-. injection Hb' as <-.
      exists idx. split; [lia | by split].
  - intros a b c p Hin Ha Hb Hc.
    assert (Hnone : calculateWinner (squares st) = None).
    { apply decided_false_no_winner. by rewrite <- Hgo. }
    assert (Hq : array_get next idx = Mark (last_mover
                   {| squares := next; isXNext := negb (isXNext st);
                      gameOver := decided next;
                      history := history st ++ [next] |})).
    { unfold next, last_mover. rewrite array_get_set_eq. simpl.
      by destruct (isXNext st). }
    destruct (decide (a = idx)) as [-> | Hna]; [congruence |].
    destruct (decide (b = idx)) as [-> | Hnb]; [congruence |].
    destruct (decide (c = idx)) as [-> | Hnc]; [congruence |].
    exfalso. unfold next in Ha, Hb, Hc.
    rewrite array_get_set_ne in Ha, Hb, Hc by done.
    by eapply (no_winner_no_line (squares st) a b c p).
Qed.

Lemma reachable_log_invariant st : reachable st -> log_invariant st.
Proof.
  induction 1 as [| st [idx |] Hreach IH He]; simpl in *.
  - apply log_invariant_initial.
  - apply log_invariant_applyMove; [by apply reachable_invariant | done..].
  - rewrite reset_eq. apply log_invariant_initial.
Qed.

(** X4: in every reachable state the move log has one entry for each mark
    on the board, the turn flag is the parity of its length (X moves when
    it is even), and the board on display is the last entry, or the empty
    board when the log is empty. *)
Theorem history_tracks_board (st : State) :
  reachable st ->
  length (history st) = count_filled (squares st)
  /\ isXNext st = Nat.even (length (history st))
  /\ last (empty_board :: history st) = Some (squares st)
  /\ (history st = [] -> squares st = empty_board).
Proof.
  intros Hreach.
  destruct (reachable_log_invariant st Hreach) as [Hlen Hturn Hlast _ _].
  repeat split; try done.
  intros Hnil. rewrite Hnil in Hlast. simpl in Hlast. congruence.
Qed.

Lemma history_tracks_board_witness :
  let st := applyMoves [4; 0; 8] initialState in
  reachable st
  /\ length (history st) = 3
  /\ isXNext st = false.
Proof.
  assert (H : reachable (applyMoves [4; 0; 8] initialState))
    by reachable_run.
  pose proof (history_tracks_board _ H) as (Hlen & Hturn & _).
  exact (conj H (conj Hlen Hturn)).
Defined.

Lemma log_entry_count st :
  log_invariant st ->
  forall k c, history st !! k = Some c -> length c = 9 /\ count_filled c = S k.
Proof.
  intros Hlog. pose proof (log_step st Hlog) as Hstep. intros k.
  induction k as [| k IH]; intros c Hc.
  - destruct (Hstep 0 empty_board c eq_refl Hc) as (idx & Hidx & He & ->).
    split; [by rewrite array_set_length |].
    by rewrite count_filled_set.
  - destruct (lookup_lt_is_Some_2 (history st) k) as [c0 Hc0].
    { apply lookup_lt_Some in Hc. lia. }
    destruct (IH c0 Hc0) as [Hl0 Hn0].
    destruct (Hstep (S k) c0 c Hc0 Hc) as (idx & Hidx & He & ->).
    split; [rewrite array_set_length; lia |].
    rewrite count_filled_set by (done || lia). lia.
Qed.

(** X5: the move log is a replay of the game: in a reachable state, entry
    [k] comes from the entry before it (from the empty board for the first
    one) by writing the mark of the player whose turn it was, X for even
    [k], into one empty cell of the nine; so entry [k] is a board of nine
    cells with [k + 1] marks. *)
Theorem history_replays_moves (st : State) (k : nat) (b b' : board) :
  reachable st ->
  (empty_board :: history st) !! k = Some b ->
  history st !! k = Some b' ->
  (exists idx,
     idx < 9
     /\ truthy (array_get b idx) = false
     /\ b' = array_set b idx (Mark (if Nat.even k then X else O)))
  /\ length b' = 9
  /\ count_filled b' = S k.
Proof.
  intros Hreach Hb Hb'.
  pose proof (reachable_log_invariant st Hreach) as Hlog.
  split; [by eapply log_step |]. by eapply log_entry_count.
Qed.

Lemma history_replays_moves_witness :
  let st := applyMoves [4; 0; 8] initialState in
  let b := [Null; Null; Null; Null; Mark X; Null; Null; Null; Null] in
  let b' := [Mark O; Null; Null; Null; Mark X; Null; Null; Null; Null] in
  reachable st
  /\ (empty_board :: history st) !! 1 = Some b
  /\ history st !! 1 = Some b'
  /\ count_filled b' = 2.
Proof.
  assert (H : reachable (applyMoves [4; 0; 8] initialState))
    by reachable_run.
  pose proof (history_replays_moves
                (applyMoves [4; 0; 8] initialState) 1
                [Null; Null; Null; Null; Mark X; Null; Null; Null; Null]
                [Mark O; Null; Null; Null; Mark X; Null; Null; Null; Null]
                H eq_refl eq_refl) as (_ & _ & Hcount).
  exact (conj H (conj eq_refl (conj eq_refl Hcount))).
Defined.

(** X6: in every reachable state only the player who moved last can hold
    a complete line: the winner the evaluator reports is that player, and
    no line holds three marks of the other one. *)
Theorem winner_is_last_mover (st : State) :
  reachable st ->
  (forall r, winResult st = Some r -> winner r = Mark (last_mover st))
  /\ (forall t, t ∈ lines ->
        ~ (let '(a, b, c) := t in
           array_get (squares st) a = Mark (other (last_mover st))
           /\ array_get (squares st) b = Mark (other (last_mover st))
           /\ array_get (squares st) c = Mark (other (last_mover st)))).
Proof.
  intros Hreach.
  pose proof (log_line st (reachable_log_invariant st Hreach)) as Hline.
  split.
  - intros r Hr.
    destruct (calculateWinner_winner _ _ Hr)
      as (p & a & b & c & -> & Hin & Ha & Hb & Hc).
    simpl. f_equal. by eapply Hline.
  - intros [[a b] c] Hin (Ha & Hb & Hc).
    pose proof (Hline a b c _ Hin Ha Hb Hc) as H.
    by destruct (last_mover st).
Qed.

Lemma winner_is_last_mover_witness :
  let st := applyMoves [0; 4; 1; 3; 2] initialState in
  reachable st
  /\ winResult st = Some {| winner := Mark X; line := [0; 1; 2] |}
  /\ Mark X = Mark (last_mover st).
Proof.
  assert (H : reachable (applyMoves [0; 4; 1; 3; 2] initialState))
    by reachable_run.
  assert (Hr : winResult (applyMoves [0; 4; 1; 3; 2] initialState)
               = Some {| winner := Mark X; line := [0; 1; 2] |})
    by (vm_compute; reflexivity).
  exact (conj H (conj Hr (proj1 (winner_is_last_mover _ H) _ Hr))).
Defined.

(** X7: no game is won before the fifth move: in a reachable state with a
    winner at least five cells are filled, and at least six when the
    winner is O. *)
Theorem no_win_before_fifth_move (st : State) (r : WinResult) :
  reachable st ->
  winResult st = Some r ->
  5 <= count_filled (squares st)
  /\ (winner r = Mark O -> 6 <= count_filled (squares st)).
Proof.
  intros Hreach Hr.
  destruct (reachable_invariant st Hreach) as [_ _ _ HX HO].
  pose proof (log_line st (reachable_log_invariant st Hreach)) as Hline.
  destruct (calculateWinner_three_marks _ _ Hr) as (p & Hp & H3).
  destruct (calculateWinner_winner _ _ Hr)
    as (p' & a & b & c & -> & Hin & Ha & Hb & Hc).
  simpl in Hp. injection Hp as ->.
  pose proof (Hline a b c p Hin Ha Hb Hc) as Hlast.
  rewrite count_filled_marks. unfold last_mover in Hlast. simpl.
  destruct (isXNext st); subst p.
  - rewrite HX in * by done. split; [lia |]. intros _. lia.
  - rewrite HO in * by done. split; [lia |]. discriminate.
Qed.

Lemma no_win_before_fifth_move_witness :
  let st := applyMoves [0; 4; 1; 3; 2] initialState in
  reachable st
  /\ winResult st = Some {| winner := Mark X; line := [0; 1; 2] |}
  /\ 5 <= count_filled (squares st).
Proof.
  assert (H : reachable (applyMoves [0; 4; 1; 3; 2] initialState))
    by reachable_run.
  assert (Hr : winResult (applyMoves [0; 4; 1; 3; 2] initialState)
               = Some {| winner := Mark X; line := [0; 1; 2] |})
    by (vm_compute; reflexivity).
  exact (conj H (conj Hr (proj1 (no_win_before_fifth_move _ _ H Hr)))).
Defined.

(** ** How moves compose *)

(** X8: clicking the same cell twice is the same as clicking it once, in
    every state: the second click finds the cell occupied, or is ignored
    for the reason the first one was. *)
Theorem applyMove_twice (st : State) (idx : nat) :
  applyMove idx (applyMove idx st) = applyMove idx st.
Proof.
  destruct (truthy (array_get (squares st) idx) || gameOver st) eqn:Hg.
  - by rewrite !(applyMove_rejected idx st) by done.
  - apply applyMove_rejected. rewrite applyMove_accepted by done.
    cbv zeta. simpl. rewrite array_get_set_eq. by destruct (isXNext st).
Qed.

Lemma applyMoves_cons idx idxs st :
  applyMoves (idx :: idxs) st = applyMoves idxs (applyMove idx st).
Proof. reflexivity. Qed.

Lemma applyMoves_snoc idxs idx st :
  applyMoves (idxs ++ [idx]) st = applyMove idx (applyMoves idxs st).
Proof. unfold applyMoves. by rewrite foldl_app. Qed.

(** X9: once the board of a reachable state shows a win or a draw, no
    sequence of clicks changes the state; restart is the only way on. *)
Theorem result_is_final (st : State) (idxs : list nat) :
  reachable st ->
  gameResult (squares st) <> InProgress ->
  applyMoves idxs st = st.
Proof.
  intros Hreach Hres. induction idxs as [| idx idxs IH]; [done |].
  by rewrite applyMoves_cons, applyMove_after_result.
Qed.

Lemma result_is_final_witness :
  let st := applyMoves [0; 4; 1; 3; 2] initialState in
  reachable st
  /\ gameResult (squares st) <> InProgress
  /\ applyMoves [5; 6; 0; 8] st = st.
Proof.
  assert (H : reachable (applyMoves [0; 4; 1; 3; 2] initialState))
    by reachable_run.
  assert (Hres : gameResult (squares (applyMoves [0; 4; 1; 3; 2] initialState))
                 <> InProgress) by (vm_compute; intros [=]).
  exact (conj H (conj Hres (result_is_final _ [5; 6; 0; 8] H Hres))).
Defined.

(** X10: a game has at most nine moves: a run of accepted clicks from a
    reachable state is no longer than the number of cells still empty. *)
Theorem accepted_moves_bounded (st : State) (idxs : list nat) :
  reachable st ->
  all_accepted idxs st = true ->
  count_filled (squares st) + length idxs <= 9.
Proof.
  intros Hreach Hacc.
  destruct (all_accepted_run idxs st (reachable_invariant _ Hreach) Hacc)
    as [[Hlen9 _ _ _ _] Hcount].
  rewrite <- Hcount, <- Hlen9. apply length_filter.
Qed.

Lemma accepted_moves_bounded_witness :
  let st := applyMoves [4; 0] initialState in
  reachable st
  /\ all_accepted [8; 2; 6] st = true
  /\ count_filled (squares st) + 3 <= 9.
Proof.
  assert (H : reachable (applyMoves [4; 0] initialState)) by reachable_run.
  assert (Hacc : all_accepted [8; 2; 6] (applyMoves [4; 0] initialState) = true)
    by (vm_compute; reflexivity).
  exact (conj H (conj Hacc (accepted_moves_bounded _ [8; 2; 6] H Hacc))).
Defined.

Lemma all_accepted_snoc idxs idx st :
  all_accepted (idxs ++ [idx]) st
  = all_accepted idxs st && accepted idx (applyMoves idxs st).
Proof.
  revert st. induction idxs as [| i idxs IH]; intros st; simpl.
  - by rewrite andb_true_r.
  - rewrite IH, andb_assoc. reflexivity.
Qed.

Lemma all_accepted_reachable idxs st :
  reachable st -> all_accepted idxs st = true ->
  reachable (applyMoves idxs st).
Proof.
  revert st. induction idxs as [| idx idxs IH]; intros st Hreach Hacc; [done |].
  simpl in Hacc. apply andb_true_iff in Hacc as [Hidx Hrest].
  rewrite applyMoves_cons. apply IH; [| done].
  apply reachable_click; [done |]. by apply accepted_true in Hidx as [? _].
Qed.

(** X11: ignored clicks and restarts add no states: the reachable states
    are exactly the results of runs of accepted moves from the initial
    state. *)
Theorem reachable_by_accepted_moves (st : State) :
  reachable st <->
  exists idxs,
    all_accepted idxs initialState = true
    /\ applyMoves idxs initialState = st.
Proof.
  split.
  - induction 1 as [| st [idx |] Hreach (idxs & Hacc & Hrun) He]; simpl in *.
    + by exists [].
    + destruct (truthy (array_get (squares st) idx) || gameOver st) eqn:Hg.
      * exists idxs. by rewrite applyMove_rejected.
      * exists (idxs ++ [idx]).
        rewrite all_accepted_snoc, applyMoves_snoc, Hrun, Hacc. split; [| done].
        apply accepted_true. by split.
    + by exists [].
  - intros (idxs & Hacc & <-).
    apply all_accepted_reachable; [apply reachable_init | done].
Qed.

(** * What is drawn *)

Lemma App_Board_lookup st idx props :
  App_Board st !! idx = Some (Some props) <->
  array_get (squares st) idx <> Undefined
  /\ props = {| prop_value := array_get (squares st) idx;
                prop_onClick := handleSquareClick idx;
                prop_highlight :=
                  match winningLine st with
                  | None => None
                  | Some l => Some (bool_decide (idx ∈ l))
                  end;
                prop_disabled :=
                  truthy (array_get (squares st) idx) || gameOver st |}.
Proof.
  unfold App_Board, Board, array_get. rewrite list_lookup_imap.
  destruct (squares st !! idx) as [[| | p] |]; simpl; split;
    try (intros [= <-]; by split); try (by intros [_ ->]);
    try done; by intros [? _].
Qed.

Lemma App_buttons_lookup st idx btn :
  App_buttons st !! idx = Some (Some btn) <->
  exists props, App_Board st !! idx = Some (Some props) /\ btn = Square props.
Proof.
  unfold App_buttons. rewrite list_lookup_fmap.
  destruct (App_Board st !! idx) as [[props |] |]; simpl; split.
  - intros [= <-]. by exists props.
  - by intros (props' & [= <-] & ->).
  - done.
  - by intros (? & ? & _).
  - done.
  - by intros (? & ? & _).
Qed.

(** X12: a button of the board is disabled exactly when a click on it
    would change nothing; whatever the state, the button at index [idx]
    carries the click handler for [idx] and shows the cell [idx]. *)
Theorem button_disabled_iff_ignored (st : State) (idx : nat) (btn : Button) :
  App_buttons st !! idx = Some (Some btn) ->
  onClick btn = handleSquareClick idx
  /\ children btn = array_get (squares st) idx
  /\ (disabled btn = true <-> dispatch (onClick btn) st = st)
  /\ (disabled btn = false <->
      isXNext (dispatch (onClick btn) st) = negb (isXNext st)).
Proof.
  intros H. apply App_buttons_lookup in H as (props & H & ->).
  apply App_Board_lookup in H as [_ ->]. simpl.
  split; [done |]. split; [done |].
  fold (applyMove idx st).
  destruct (truthy (array_get (squares st) idx) || gameOver st) eqn:Hg.
  - rewrite applyMove_rejected by done.
    split; [done |]. split; [done |]. by destruct (isXNext st).
  - rewrite applyMove_accepted by done. cbv zeta. simpl.
    split; [| done]. split; [done |].
    intros Heq. apply (f_equal isXNext) in Heq. simpl in Heq.
    by destruct (isXNext st).
Qed.

Lemma button_disabled_iff_ignored_witness :
  let st := applyMoves [4; 0] initialState in
  exists btn,
    App_buttons st !! 4 = Some (Some btn)
    /\ disabled btn = true
    /\ dispatch (onClick btn) st = st.
Proof.
  eexists. split; [reflexivity |]. split; [reflexivity |].
  refine (proj1 (proj1 (proj2 (proj2
            (button_disabled_iff_ignored (applyMoves [4; 0] initialState) 4 _
               eq_refl)))) eq_refl).
Defined.

(** X13: the highlighted buttons are the cells of the winning line: a
    button has the highlight class only if there is a winner and its index
    is on the reported line, every index of that line has such a button,
    showing the winner's mark, and the line has three different
    indices. *)
Theorem highlight_is_winning_line (st : State) (idx : nat) :
  (forall btn,
     App_buttons st !! idx = Some (Some btn) ->
     (className btn = "ttt-square highlight"%string
      /\ exists r, winResult st = Some r /\ idx ∈ line r
                   /\ children btn = winner r)
     \/ (className btn = "ttt-square"%string
         /\ forall r, winResult st = Some r -> idx ∉ line r))
  /\ (forall r,
        winResult st = Some r -> idx ∈ line r ->
        exists btn,
          App_buttons st !! idx = Some (Some btn)
          /\ className btn = "ttt-square highlight"%string
          /\ children btn = winner r)
  /\ (forall r,
        winResult st = Some r ->
        exists a b c, line r = [a; b; c] /\ a <> b /\ a <> c /\ b <> c).
Proof.
  assert (Hcell : forall r, winResult st = Some r -> idx ∈ line r ->
                            array_get (squares st) idx = winner r
                            /\ winner r <> Undefined).
  { intros r Hr Hin.
    destruct (calculateWinner_winner _ _ Hr)
      as (p & a & b & c & -> & _ & Ha & Hb & Hc). simpl in *.
    split; [| done].
    repeat (apply elem_of_cons in Hin as [-> | Hin]; [done |]).
    by apply elem_of_nil in Hin. }
  split; [| split].
  - intros btn H. apply App_buttons_lookup in H as (props & H & ->).
    apply App_Board_lookup in H as [_ ->]. unfold winningLine. simpl.
    destruct (winResult st) as [r |] eqn:Hr; simpl.
    + case_bool_decide as Hin; simpl.
      * left. split; [done |]. exists r. split; [done |]. split; [done |].
        by apply Hcell.
      * right. split; [done |]. by intros r' [= <-].
    + right. split; [done |]. discriminate.
  - intros r Hr Hin. destruct (Hcell r Hr Hin) as [Hv Hdef].
    eexists. split.
    + apply App_buttons_lookup. eexists. split; [| reflexivity].
      apply App_Board_lookup. split; [congruence | reflexivity].
    + unfold winningLine. rewrite Hr. simpl.
      rewrite bool_decide_eq_true_2 by done. by split.
  - intros r Hr.
    destruct (calculateWinner_winner _ _ Hr)
      as (p & a & b & c & -> & Hin & _).
    destruct (lines_indices _ _ _ Hin) as (? & ? & ? & _).
    exists a, b, c. auto.
Qed.

Lemma decided_false_result (squares : board) :
  decided squares = false <-> gameResult squares = InProgress.
Proof.
  pose proof (decided_result squares) as [H1 H2].
  destruct (decided squares), (gameResult squares);
    split; intros H; try done.
  - by destruct (H1 eq_refl).
  - by specialize (H2 ltac:(discriminate)).
  - by specialize (H2 ltac:(discriminate)).
Qed.

(** X14: in every reachable state the board is drawn with nine buttons,
    one for each cell; the button of an empty cell is labelled
    "Empty cell", that of a marked cell "Cell X" or "Cell O"; while the
    game runs the enabled buttons are those of the empty cells, and once
    it is over every button is disabled. *)
Theorem nine_buttons (st : State) (idx : nat) :
  reachable st ->
  idx < 9 ->
  length (App_buttons st) = 9
  /\ exists btn,
       App_buttons st !! idx = Some (Some btn)
       /\ aria_label btn
          = match array_get (squares st) idx with
            | Mark X => "Cell X"%string
            | Mark O => "Cell O"%string
            | Undefined | Null => "Empty cell"%string
            end
       /\ (disabled btn = false <->
           array_get (squares st) idx = Null
           /\ gameResult (squares st) = InProgress).
Proof.
  intros Hreach Hidx.
  destruct (reachable_invariant st Hreach) as [Hlen Hholes Hgo _ _].
  split.
  { unfold App_buttons, App_Board, Board.
    by rewrite length_fmap, length_imap. }
  destruct (lookup_lt_is_Some_2 (squares st) idx) as [v Hv]; [lia |].
  pose proof (Forall_lookup_1 _ _ _ _ Hholes Hv) as Hdef.
  assert (Hget : array_get (squares st) idx = v).
  { unfold array_get. by rewrite Hv. }
  eexists. split.
  { apply App_buttons_lookup. eexists. split; [| reflexivity].
    apply App_Board_lookup. split; [congruence | reflexivity]. }
  simpl. rewrite Hget, Hgo. split.
  - by destruct v as [| | []].
  - rewrite orb_false_iff.
    rewrite decided_false_result.
    destruct v; simpl; split; intros [? ?]; try done.
Qed.

Lemma nine_buttons_witness :
  let st := applyMoves [4; 0] initialState in
  reachable st
  /\ length (App_buttons st) = 9.
Proof.
  assert (H : reachable (applyMoves [4; 0] initialState)) by reachable_run.
  exact (conj H (proj1 (nine_buttons _ 4 H ltac:(lia)))).
Defined.

(** X15: the class of the status line follows the result of the game in
    every state: the winner class when the evaluator finds a winner, the
    draw class on a full board without one, and no extra class while the
    game runs. *)
Theorem status_className_result (st : State) :
  status_className st
  = match gameResult (squares st) with
    | Win _ _ => "ttt-status ttt-status-winner"%string
    | Draw => "ttt-status ttt-status-draw"%string
    | InProgress => "ttt-status"%string
    end.
Proof.
  unfold status_className, status, gameResult, winResult, isBoardFull.
  destruct (calculateWinner (squares st)) as [r |] eqn:Hr.
  - destruct (calculateWinner_winner _ _ Hr) as (p & a & b & c & -> & _).
    by destruct p.
  - destruct (every_Boolean (squares st)); [done |].
    by destruct (isXNext st).
Qed.

(** X16: the status line names the player whose mark the next accepted
    click places: when it reads "Next turn: X" (or O), a click on an empty
    cell with the game-over flag clear writes X (or O) there. *)
Theorem status_names_next_mark (st : State) (idx : nat) (p : player) :
  status st = ("Next turn: " +:+ to_string (Mark p))%string ->
  truthy (array_get (squares st) idx) = false ->
  gameOver st = false ->
  array_get (squares (applyMove idx st)) idx = Mark p.
Proof.
  intros Hstatus Hempty Hover.
  rewrite applyMove_accepted by (by rewrite Hempty, Hover).
  cbv zeta. simpl. rewrite array_get_set_eq.
  unfold status, winResult, isBoardFull in Hstatus.
  destruct (calculateWinner (squares st)) as [r |] eqn:Hr.
  - destruct (calculateWinner_winner _ _ Hr) as (q & a & b & c & -> & _).
    destruct q, p; discriminate.
  - destruct (every_Boolean (squares st)); [destruct p; discriminate |].
    destruct (isXNext st), p; done.
Qed.

Lemma status_names_next_mark_witness :
  let st := applyMoves [4] initialState in
  status st = "Next turn: O"%string
  /\ array_get (squares (applyMove 0 st)) 0 = Mark O.
Proof.
  split; [reflexivity |].
  exact (status_names_next_mark (applyMoves [4] initialState) 0 O
           eq_refl eq_refl eq_refl).
Defined.

(** * Edge behaviour and draws *)



Lemma count_filled_all (squares : board) :
  every_Boolean squares = true ->
  Forall (fun v => v <> Undefined) squares ->
  count_filled squares = length squares.
Proof.
  unfold count_filled, every_Boolean.
  induction squares as [| v l IH]; [done |]. simpl.
  rewrite andb_true_iff, Forall_cons, filter_cons.
  intros [Hv Hl] [Hdef Hholes].
  destruct v; try done. simpl. by rewrite IH.
Qed.

(** X18: a draw is always the same count: in a reachable state whose
    result is [Draw] the board holds five X and four O, nine moves are
    logged, and X made the last one. *)
Theorem draw_is_five_four (st : State) :
  reachable st ->
  gameResult (squares st) = Draw ->
  count_mark X (squares st) = 5
  /\ count_mark O (squares st) = 4
  /\ length (history st) = 9
  /\ last_mover st = X.
Proof.
  intros Hreach Hdraw.
  destruct (reachable_invariant st Hreach) as [Hlen Hholes _ HX HO].
  destruct (reachable_log_invariant st Hreach) as [Hlog _ _ _ _].
  assert (Hfull : every_Boolean (squares st) = true).
  { pose proof (gameResult_cases (squares st)) as H.
    destruct (calculateWinner (squares st)).
    - destruct H as (p & _ & H). congruence.
    - destruct (every_Boolean (squares st)); [done | congruence]. }
  pose proof (count_filled_all _ Hfull Hholes) as Hcount.
  rewrite Hlog, Hcount, Hlen. rewrite count_filled_marks, Hlen in Hcount.
  unfold last_mover.
  destruct (isXNext st); [rewrite HX in * by done | rewrite HO in * by done];
    repeat split; lia.
Qed.

Lemma draw_is_five_four_witness :
  let st := applyMoves [0; 1; 2; 4; 3; 5; 7; 6; 8] initialState in
  reachable st
  /\ gameResult (squares st) = Draw
  /\ count_mark X (squares st) = 5.
Proof.
  assert (H : reachable (applyMoves [0; 1; 2; 4; 3; 5; 7; 6; 8] initialState))
    by reachable_run.
  assert (Hd : gameResult (squares (applyMoves [0; 1; 2; 4; 3; 5; 7; 6; 8]
                                      initialState)) = Draw)
    by (vm_compute; reflexivity).
  exact (conj H (conj Hd (proj1 (draw_is_five_four _ H Hd)))).
Defined.
